(** * Shallow embedding of the confer resolution engine

    The Go package [confer] resolves configuration keys through three tiers:
    command-line flags ([PFlagSource]), environment bindings ([EnvSource]) and
    an attribute store ([ConfigSource]) holding a nested [map[string]interface{}]
    tree with a case-insensitive materialized-path index.

    Modelling choices:
    - a Go [interface{}] value of the decoded tree is [value]; Go's [nil] is
      [VNull];
    - a Go [map[string]interface{}] of the tree is an association list; its
      iteration order ([for k, v := range m]) is the list order, so a theorem
      quantified over all lists holds for every iteration order;
    - the index maps ([map[string]string]) are stdpp [gmap string string];
    - [strings.ToLower] / [strings.ToUpper] act on ASCII letters. *)

From Stdlib Require Import String Ascii ZArith.
From stdpp Require Import base gmap strings list.

Open Scope string_scope.
Set Warnings "-register-all".

(* ------------------------------------------------------------------ *)
(** ** Values of the decoded configuration tree *)

Inductive value : Type :=
| VNull
| VBool (b : bool)
| VInt (z : Z)
| VStr (s : string)
| VList (l : list value)
| VMap (m : list (string * value)).

(** Induction principle that sees the children of lists and maps. *)
Definition value_ind' (P : value -> Prop)
  (Hnull : P VNull)
  (Hbool : forall b, P (VBool b))
  (Hint : forall z, P (VInt z))
  (Hstr : forall s, P (VStr s))
  (Hlist : forall l, Forall P l -> P (VList l))
  (Hmap : forall m, Forall (fun kv => P (snd kv)) m -> P (VMap m)) :
  forall v, P v :=
  fix go (v : value) : P v :=
    match v as v0 return P v0 with
    | VNull => Hnull
    | VBool b => Hbool b
    | VInt z => Hint z
    | VStr s => Hstr s
    | VList l =>
        Hlist l
          ((fix gol (l : list value) : Forall P l :=
              match l as l0 return Forall P l0 with
              | nil => Stdlib.Lists.List.Forall_nil _
              | cons y r => @Stdlib.Lists.List.Forall_cons _ P y r (go y) (gol r)
              end) l)
    | VMap m =>
        Hmap m
          ((fix gom (m : list (string * value)) :
                Forall (fun kv => P (snd kv)) m :=
              match m as m0 return Forall (fun kv => P (snd kv)) m0 with
              | nil => Stdlib.Lists.List.Forall_nil _
              | cons (k, x) r => @Stdlib.Lists.List.Forall_cons _ (fun kv => P (snd kv)) (k, x) r (go x) (gom r)
              end) m)
    end.

(* ------------------------------------------------------------------ *)
(** ** String helpers ([strings.ToLower], [strings.ToUpper],
       [strings.Replace(s, ".", "_", -1)], [strings.Split(s, ".")]) *)

Definition ascii_lower (c : ascii) : ascii :=
  let n := nat_of_ascii c in
  if (65 <=? n)%nat && (n <=? 90)%nat then ascii_of_nat (n + 32) else c.

Definition ascii_upper (c : ascii) : ascii :=
  let n := nat_of_ascii c in
  if (97 <=? n)%nat && (n <=? 122)%nat then ascii_of_nat (n - 32) else c.

Fixpoint ToLower (s : string) : string :=
  match s with
  | EmptyString => EmptyString
  | String c r => String (ascii_lower c) (ToLower r)
  end.

Fixpoint ToUpper (s : string) : string :=
  match s with
  | EmptyString => EmptyString
  | String c r => String (ascii_upper c) (ToUpper r)
  end.

Fixpoint replace_dots (s : string) : string :=
  match s with
  | EmptyString => EmptyString
  | String c r =>
      String (if Ascii.eqb c "." then "_"%char else c) (replace_dots r)
  end.

(** [strings.Split(s, ".")]: never empty; [Split("", ".") = [""]]. *)
Fixpoint split_dot (s : string) : list string :=
  match s with
  | EmptyString => [EmptyString]
  | String c r =>
      let rest := split_dot r in
      if Ascii.eqb c "." then EmptyString :: rest
      else match rest with
           | seg :: tl => String c seg :: tl
           | [] => [String c EmptyString]
           end
  end.

(* ------------------------------------------------------------------ *)
(** ** Go [map[string]interface{}] as an association list *)

Definition tree := list (string * value).

(** [v, ok := m[k]] *)
Fixpoint alookup (k : string) (m : tree) : option value :=
  match m with
  | [] => None
  | (k', v) :: r => if String.eqb k k' then Some v else alookup k r
  end.

(** [m[k] = v]: overwrite in place, or add a new key. *)
Fixpoint aset (k : string) (v : value) (m : tree) : tree :=
  match m with
  | [] => [(k, v)]
  | (k', v') :: r => if String.eqb k k' then (k, v) :: r else (k', v') :: aset k v r
  end.

(** [cast.ToStringMap]: a map is returned as is, anything else becomes the
    empty map. *)
Definition toStringMap (v : value) : tree :=
  match v with
  | VMap m => m
  | _ => []
  end.

(* ------------------------------------------------------------------ *)
(** ** [ConfigSource] (source/configsource.go) *)

Record ConfigSource := {
  data : tree;
  index : gmap string string
}.

Definition NewConfigSource : ConfigSource := {| data := []; index := ∅ |}.

(** [joined_key]: note the [else] branch keeps [key] (not [child_key]). *)
Definition joined_key (key child_key : string) : string :=
  if (0 <? String.length key)%nat then key ++ "." ++ child_key else key.

(** [updateIndex(key, data)] *)
Fixpoint updateIndex (key : string) (d : value) (idx : gmap string string)
    {struct d} : gmap string string :=
  match d with
  | VNull => idx
  | VMap m =>
      (fix go (m : tree) (idx : gmap string string) : gmap string string :=
         match m with
         | [] => idx
         | (child_key, v) :: r => go r (updateIndex (joined_key key child_key) v idx)
         end) m (<[ToLower key := key]> idx)
  | _ => <[ToLower key := key]> idx
  end.

(** The loop over the children of a nested tree in [updateIndex]. *)
Fixpoint index_children (key : string) (m : tree) (idx : gmap string string)
    : gmap string string :=
  match m with
  | [] => idx
  | (child_key, v) :: r => index_children key r (updateIndex (joined_key key child_key) v idx)
  end.

(** [UpdateIndices()]: index every top-level entry, starting from the
    current index (it is not cleared). *)
Fixpoint index_entries (m : tree) (idx : gmap string string) : gmap string string :=
  match m with
  | [] => idx
  | (k, v) :: r => index_entries r (updateIndex k v idx)
  end.

Definition UpdateIndices (cs : ConfigSource) : ConfigSource :=
  {| data := data cs; index := index_entries (data cs) (index cs) |}.

(** [Set(key, val)] *)
Definition cs_Set (key : string) (v : value) (cs : ConfigSource) : ConfigSource :=
  {| data := aset key v (data cs); index := updateIndex key v (index cs) |}.

(** [FromStringMap(data)] *)
Definition FromStringMap (d : tree) (cs : ConfigSource) : ConfigSource :=
  UpdateIndices {| data := d; index := index cs |}.

(** [ToStringMap()] *)
Definition ToStringMap (cs : ConfigSource) : tree := data cs.

(** The segment walk of [Get]: descend [path[:len(path)-1]] through
    [cast.ToStringMap] and look the last segment up.  The Go guard
    [reflect.TypeOf(current).Kind() != reflect.Map] never fires, since
    [current] is always a [map[string]interface{}]. *)
Fixpoint walk (path : list string) (current : tree) : option value :=
  match path with
  | [] => None
  | [last] => alookup last current
  | part :: rest =>
      match alookup part current with
      | None => None
      | Some next => walk rest (toStringMap next)
      end
  end.

(** [Get(key) (val, exists)] *)
Definition cs_Get (key : string) (cs : ConfigSource) : option value :=
  match index cs !! ToLower key with
  | None => None
  | Some index_key =>
      match alookup index_key (data cs) with
      | Some flat_val => Some flat_val
      | None => walk (split_dot index_key) (data cs)
      end
  end.

(* ------------------------------------------------------------------ *)
(** ** [EnvSource] (source/env.go) *)

(** The process environment as [os.Getenv] sees it: an unset variable reads
    as [""], and Go's [os.Getenv("")] is always [""]. *)
Definition environ := string -> string.

Definition Getenv (os : environ) (k : string) : string :=
  if String.eqb k "" then "" else os k.

Definition envamize (key : string) : string := replace_dots (ToUpper key).

Definition EnvSource := gmap string string.

Definition NewEnvSource : EnvSource := ∅.

(** [Bind(input ...string) error]; [None] is a [nil] error. *)
Definition env_Bind (input : list string) (e : EnvSource) : EnvSource * option string :=
  match input with
  | [] => (e, Some "BindEnv missing key to bind to")
  | k0 :: rest =>
      let key := match rest with [] => k0 | k1 :: _ => k1 end in
      (<[ToLower key := envamize key]> e, None)
  end.

(** [Get(key) (val, exists)]: the index is read with [key] as given. *)
Definition env_Get (os : environ) (key : string) (e : EnvSource) : option value :=
  let envkey := match e !! key with Some ek => ek | None => "" end in
  let val := Getenv os envkey in
  if String.eqb val "" then None else Some (VStr val).

(* ------------------------------------------------------------------ *)
(** ** [PFlagSource] *)

(** The flag capability consumed from the command-line layer. *)
Record Flag := {
  flag_value : string;   (* [flag.Value.String()] *)
  flag_type : string;    (* [flag.Value.Type()] *)
  flag_changed : bool    (* [flag.Changed] *)
}.

Definition PFlagSource := gmap string Flag.

(** Modelled from the spec: [PFlagSource] (its Go file is not part of the
    sources).  §4.5: [Bind(key, flagHandle)] registers the handle;
    [Get(key)] is found only when [flagHandle.Changed()] is true and returns
    the flag's current string representation.  Keys are compared
    case-insensitively, as the repository's tests on [Get("testValue")]
    for a flag bound as ["testvalue"] require. *)
Definition NewPFlagSource : PFlagSource := ∅.

(** Modelled from the spec: [PFlagSource.Set] (see [NewPFlagSource]). *)
Definition pf_Set (key : string) (f : Flag) (p : PFlagSource) : PFlagSource :=
  <[ToLower key := f]> p.

(** Modelled from the spec: [PFlagSource.Get] (see [NewPFlagSource]). *)
Definition pf_Get (key : string) (p : PFlagSource) : option value :=
  match p !! ToLower key with
  | Some f => if flag_changed f then Some (VStr (flag_value f)) else None
  | None => None
  end.

(* ------------------------------------------------------------------ *)
(** ** Deep merge [maps.Merge] *)

(** Modelled from the spec: [maps.Merge(base, overlay)] (package [maps] is
    not part of the sources).  §4.2: for each key of [overlay], if the key is
    absent in [base], or either value is not a nested tree, the overlay value
    replaces the base value; if both are nested trees they are merged
    recursively.  Keys only in [base] are kept.  [merge_value bv ov] is the
    new value of a key whose base value is [bv] and overlay value is [ov]. *)
Fixpoint merge_value (bv : option value) (ov : value) {struct ov} : value :=
  match ov with
  | VMap om =>
      match bv with
      | Some (VMap bm) =>
          VMap ((fix go (b o : tree) : tree :=
                   match o with
                   | [] => b
                   | (k, v) :: r => go (aset k (merge_value (alookup k b) v) b) r
                   end) bm om)
      | _ => ov
      end
  | _ => ov
  end.

(** Modelled from the spec: [maps.Merge] on two trees (see [merge_value]). *)
Fixpoint Merge (base overlay : tree) : tree :=
  match overlay with
  | [] => base
  | (k, v) :: r => Merge (aset k (merge_value (alookup k base) v) base) r
  end.

(* ------------------------------------------------------------------ *)
(** ** [ConfigManager] (confer.go) *)

Record ConfigManager := {
  attributes : ConfigSource;
  pflags : PFlagSource;
  env : EnvSource
}.

Definition NewConfiguration : ConfigManager :=
  {| attributes := NewConfigSource; pflags := NewPFlagSource; env := NewEnvSource |}.

Definition with_attributes (cs : ConfigSource) (m : ConfigManager) : ConfigManager :=
  {| attributes := cs; pflags := pflags m; env := env m |}.

(** [Find(key) interface{}] *)
Definition Find (os : environ) (key : string) (m : ConfigManager) : value :=
  match pf_Get key (pflags m) with
  | Some val => val
  | None =>
      match env_Get os key (env m) with
      | Some val => val
      | None =>
          match cs_Get key (attributes m) with
          | Some val => val
          | None => VNull
          end
      end
  end.

(** The type switch of [Get]: every case returns the value with its own
    type ([cast.ToBool] of a bool, [cast.ToString] of a string, ...);
    integers of every width are one [Z]. *)
Definition normalize (v : value) : value :=
  match v with
  | VBool b => VBool b
  | VStr s => VStr s
  | VInt z => VInt z
  | v => v
  end.

(** [Get(key) interface{}]: note that [key] is passed to [Find] as given. *)
Definition Get (os : environ) (key : string) (m : ConfigManager) : value :=
  match Find os key m with
  | VNull => VNull
  | v => normalize v
  end.

Definition is_nil (v : value) : bool :=
  match v with VNull => true | _ => false end.

(** [IsSet(key) bool] *)
Definition IsSet (os : environ) (key : string) (m : ConfigManager) : bool :=
  negb (is_nil (Get os key m)).

(** [SetDefault(key, value)] *)
Definition SetDefault (os : environ) (key : string) (v : value) (m : ConfigManager)
    : ConfigManager :=
  if negb (IsSet os key m) then with_attributes (cs_Set key v (attributes m)) m
  else m.

(** [Set(key, value)] *)
Definition mgr_Set (key : string) (v : value) (m : ConfigManager) : ConfigManager :=
  with_attributes (cs_Set key v (attributes m)) m.

(** [BindEnv(input ...string) error] *)
Definition BindEnv (input : list string) (m : ConfigManager) : ConfigManager * option string :=
  let (e', err) := env_Bind input (env m) in
  ({| attributes := attributes m; pflags := pflags m; env := e' |}, err).

(** [MergeAttributes(val) error] (always [nil]). *)
Definition MergeAttributes (val : value) (m : ConfigManager) : ConfigManager :=
  let merged_config := Merge (ToStringMap (attributes m)) (toStringMap val) in
  with_attributes (FromStringMap merged_config (attributes m)) m.

(** [reader.Readfile(path)]: a decoded document or the read error. *)
Inductive read_result :=
| ReadOk (loaded : value)
| ReadErr (err : string).

(** The loop of [ReadPaths]; an error is appended to [errs] and the loop is
    left with [break].  The [merged_config == nil] branch is not modelled:
    [ToStringMap] returns the store's own map, allocated by
    [NewConfigSource], and [maps.ToStringMapRecursive] is the identity on
    [value]. *)
Fixpoint read_loop (readfile : string -> read_result) (paths : list string)
    (merged_config : tree) (errs : list string) (cs : ConfigSource)
    : ConfigSource * list string :=
  match paths with
  | [] => (cs, errs)
  | path :: rest =>
      match readfile path with
      | ReadErr err => (cs, app errs [err])
      | ReadOk loaded =>
          let coerced := toStringMap loaded in
          let merged_config := Merge merged_config coerced in
          read_loop readfile rest merged_config errs (FromStringMap merged_config cs)
      end
  end.

(** [ReadPaths(paths ...string) error]: [Some errs] is a [LoadError]. *)
Definition ReadPaths (readfile : string -> read_result) (paths : list string)
    (m : ConfigManager) : ConfigManager * option (list string) :=
  let '(cs, errs) := read_loop readfile paths (ToStringMap (attributes m)) [] (attributes m) in
  (with_attributes cs m, match errs with [] => None | _ => Some errs end).

(* ------------------------------------------------------------------ *)
(** ** Reference notions used in the statements *)

(** The materialized paths of §3: [key] itself when its value is not null,
    and, below a nested tree, the paths of each child under
    [key ++ "." ++ child_key]. *)
Fixpoint reachable_paths (key : string) (v : value) : list string :=
  match v with
  | VNull => []
  | VMap m => key :: concat (map (fun '(ck, cv) => reachable_paths (key ++ "." ++ ck) cv) m)
  | _ => [key]
  end.

(** The keys of one map level are distinct (a Go map). *)
Fixpoint nodup_keys (m : tree) : bool :=
  match m with
  | [] => true
  | (k, _) :: r => negb (existsb (String.eqb k) (map fst r)) && nodup_keys r
  end.

(** Every map of a decoded document has distinct keys. *)
Fixpoint wf_value (v : value) : bool :=
  match v with
  | VMap m =>
      nodup_keys m &&
      (fix go (m : tree) : bool :=
         match m with
         | [] => true
         | (_, x) :: r => wf_value x && go r
         end) m
  | VList l =>
      (fix gol (l : list value) : bool :=
         match l with
         | [] => true
         | x :: r => wf_value x && gol r
         end) l
  | _ => true
  end.

(** A string has a [.] somewhere. *)
Fixpoint has_dot (s : string) : bool :=
  match s with
  | EmptyString => false
  | String c r => Ascii.eqb c "." || has_dot r
  end.

(** [strings.Join(segments, ".")]: the dotted path of a list of segments. *)
Fixpoint dot_suffix (r : list string) : string :=
  match r with
  | [] => ""
  | s :: r' => "." ++ s ++ dot_suffix r'
  end.

Definition join_dot (ks : list string) : string :=
  match ks with
  | [] => ""
  | k :: r => k ++ dot_suffix r
  end.

(* ------------------------------------------------------------------ *)
(** ** More of [ConfigManager] (confer.go) *)

(** [SupportedExts] *)
Definition SupportedExts : list string := ["json"; "toml"; "yaml"; "yml"].

(** [InConfig(key) bool] *)
Definition InConfig (key : string) (m : ConfigManager) : bool :=
  match cs_Get key (attributes m) with
  | Some _ => true
  | None => false
  end.

(** The type switch of [BindPFlag]: the default written for a flag.
    [cast.ToInt] and [cast.ToBool] of the flag's string are the parameters
    [ToInt] and [ToBool] (package [cast] is not part of the sources). *)
Definition pflag_default (ToInt : string -> Z) (ToBool : string -> bool) (f : Flag) : value :=
  let ty := flag_type f in
  if existsb (String.eqb ty) ["int"; "int8"; "int16"; "int32"; "int64"] then
    VInt (ToInt (flag_value f))
  else if String.eqb ty "bool" then VBool (ToBool (flag_value f))
  else VStr (flag_value f).

Definition dquote : string := String (ascii_of_nat 34) EmptyString.

(** [BindPFlag(key, flag) error]; a [nil] flag pointer is [None] (the
    message is [fmt.Errorf("flag for %q is nil", key)] without Go's escaping
    of [key]). *)
Definition BindPFlag (ToInt : string -> Z) (ToBool : string -> bool) (os : environ)
    (key : string) (flag : option Flag) (m : ConfigManager) : ConfigManager * option string :=
  match flag with
  | None => (m, Some ("flag for " ++ dquote ++ key ++ dquote ++ " is nil"))
  | Some f =>
      let m1 := {| attributes := attributes m; pflags := pf_Set key f (pflags m); env := env m |} in
      (SetDefault os key (pflag_default ToInt ToBool f) m1, None)
  end.

(* ------------------------------------------------------------------ *)
(** ** [reader] (reader/configreader.go) *)

(** [os.IsPathSeparator] on Unix. *)
Definition IsPathSeparator (c : ascii) : bool := Ascii.eqb c "/".

(** The loop of [filepath.Ext]: [i] runs from [len(path)-1] down to [0] and
    stops at a separator; [ext_loop path n] scans positions [n-1], ..., [0]. *)
Fixpoint ext_loop (path : string) (n : nat) : string :=
  match n with
  | O => ""
  | S i =>
      match String.get i path with
      | None => ""
      | Some c =>
          if IsPathSeparator c then ""
          else if Ascii.eqb c "." then substring i (String.length path - i) path
          else ext_loop path i
      end
  end.

(** [filepath.Ext(path)] *)
Definition Ext (path : string) : string := ext_loop path (String.length path).

(** [getConfigType(path)]: [ext[1:]] when [len(ext) > 1]. *)
Definition getConfigType (path : string) : string :=
  let ext := Ext path in
  if (1 <? String.length ext)%nat then substring 1 (String.length ext - 1) ext else "".

(** The outcome of a read: the decoded document, the error of
    [ioutil.ReadFile], the [UnsupportedConfigError] of the format, or the
    process exit of [jww.ERROR.Fatalf] on a parse error. *)
Inductive export_result :=
| Exported (config : value)
| ReadFailed (path : string)
| Unsupported (format : string)
| Fatal.

Section Reader.

(** The decoders [yaml.Unmarshal], [json.Unmarshal] and [toml.Decode] (not
    part of the sources); [None] is a parse error. *)
Variables yaml_Unmarshal json_Unmarshal toml_Decode : string -> option value.

Definition decoded (r : option value) : export_result :=
  match r with
  | Some config => Exported config
  | None => Fatal
  end.

(** [ConfigReader.ExportAs] (and [Export]) on the bytes [buf] of the
    reader. *)
Definition ExportAs (format buf : string) : export_result :=
  if String.eqb format "yaml" then decoded (yaml_Unmarshal buf)
  else if String.eqb format "json" then decoded (json_Unmarshal buf)
  else if String.eqb format "toml" then decoded (toml_Decode buf)
  else Unsupported format.

(** [Readfile(path)]; [ReadFile] is [ioutil.ReadFile], [None] an error. *)
Definition Readfile (ReadFile : string -> option string) (path : string) : export_result :=
  match ReadFile path with
  | None => ReadFailed path
  | Some file => ExportAs (getConfigType path) file
  end.

(** [Readbytes(data, format)] *)
Definition Readbytes (data format : string) : export_result := ExportAs format data.

End Reader.

(** A path component with neither [.] nor a separator. *)
Fixpoint plain_name (s : string) : bool :=
  match s with
  | EmptyString => true
  | String c r => negb (Ascii.eqb c ".") && negb (IsPathSeparator c) && plain_name r
  end.

(* ================================================================== *)
(** * Facts about the association-list maps *)

Lemma alookup_aset_eq (k : string) (v : value) (m : tree) :
  alookup k (aset k v m) = Some v.
Proof.
  induction m as [|[k' v'] r IH]; simpl.
  - by rewrite String.eqb_refl.
  - destruct (String.eqb k k') eqn:E; simpl.
    + by rewrite String.eqb_refl.
    + by rewrite E.
Qed.

Lemma alookup_aset_ne (k k' : string) (v : value) (m : tree) :
  k <> k' -> alookup k (aset k' v m) = alookup k m.
Proof.
  intros Hne. induction m as [|[k0 v0] r IH]; simpl.
  - apply String.eqb_neq in Hne. by rewrite Hne.
  - destruct (String.eqb k' k0) eqn:E; simpl.
    + apply String.eqb_eq in E; subst k0.
      apply String.eqb_neq in Hne. by rewrite Hne.
    + by rewrite IH.
Qed.

Lemma aset_alookup_same (k : string) (v : value) (m : tree) :
  alookup k m = Some v -> aset k v m = m.
Proof.
  induction m as [|[k0 v0] r IH]; simpl; [discriminate|].
  destruct (String.eqb k k0) eqn:E.
  - intros [= ->]. apply String.eqb_eq in E. by subst.
  - intros H. by rewrite IH.
Qed.

Lemma alookup_notin (k : string) (m : tree) :
  ~ In k (map fst m) -> alookup k m = None.
Proof.
  induction m as [|[k0 v0] r IH]; simpl; [done|].
  intros Hn. destruct (String.eqb k k0) eqn:E.
  - apply String.eqb_eq in E. subst. tauto.
  - apply IH. tauto.
Qed.

Lemma nodup_keys_cons (k : string) (v : value) (r : tree) :
  nodup_keys ((k, v) :: r) = true -> ~ In k (map fst r) /\ nodup_keys r = true.
Proof.
  simpl. intros H. apply andb_prop in H as [H1 H2]. split; [|done].
  intros Hin. apply negb_true_iff in H1.
  assert (existsb (String.eqb k) (map fst r) = true) as Hx.
  { apply existsb_exists. exists k. split; [done|]. apply String.eqb_refl. }
  congruence.
Qed.

Lemma nodup_keys_in_alookup (k : string) (v : value) (m : tree) :
  nodup_keys m = true -> In (k, v) m -> alookup k m = Some v.
Proof.
  induction m as [|[k0 v0] r IH]; intros Hnd Hin; [done|].
  apply nodup_keys_cons in Hnd as [Hn Hnd]. simpl in Hin |- *.
  destruct Hin as [Heq | Hin].
  - injection Heq as -> ->. by rewrite String.eqb_refl.
  - destruct (String.eqb k k0) eqn:E.
    + apply String.eqb_eq in E; subst k0.
      exfalso. apply Hn. apply in_map_iff. exists (k, v). split; [done | exact Hin].
    + by apply IH.
Qed.

Lemma wf_value_map (m : tree) :
  wf_value (VMap m) = true ->
  nodup_keys m = true /\ Forall (fun kv => wf_value (snd kv) = true) m.
Proof.
  simpl. intros H. apply andb_prop in H as [H1 H2]. split; [done|].
  clear H1. revert H2.
  induction m as [|[k x] r IH]; intros H2; [constructor|].
  apply andb_prop in H2 as [Hx Hr].
  constructor; [done|]. by apply IH.
Qed.

(* ================================================================== *)
(** * Facts about [Merge] *)

Lemma merge_value_map (bm om : tree) :
  merge_value (Some (VMap bm)) (VMap om) = VMap (Merge bm om).
Proof.
  revert bm. induction om as [|[k v] r IH]; intros bm; [done|].
  specialize (IH (aset k (merge_value (alookup k bm) v) bm)).
  simpl in IH |- *. exact IH.
Qed.

Lemma merge_value_eq (bv : option value) (ov : value) :
  merge_value bv ov =
  match bv, ov with
  | Some (VMap bm), VMap om => VMap (Merge bm om)
  | _, _ => ov
  end.
Proof.
  destruct ov as [| | | | |om]; try (destruct bv as [[]|]; reflexivity).
Qed.

Lemma merge_value_None (v : value) : merge_value None v = v.
Proof. rewrite merge_value_eq. by destruct v. Qed.

Lemma Merge_lookup_notin (k : string) (b o : tree) :
  ~ In k (map fst o) -> alookup k (Merge b o) = alookup k b.
Proof.
  revert b. induction o as [|[k' v] r IH]; intros b Hn; simpl; [done|].
  simpl in Hn. rewrite IH by tauto.
  apply alookup_aset_ne. intros ->. tauto.
Qed.

Lemma Merge_fixed (l o : tree) :
  (forall k v, In (k, v) o -> alookup k l = Some v /\ merge_value (Some v) v = v) ->
  Merge l o = l.
Proof.
  revert l. induction o as [|[k v] r IH]; intros l H; simpl; [done|].
  destruct (H k v (or_introl eq_refl)) as [Hl Hv].
  rewrite Hl, Hv, aset_alookup_same by done.
  apply IH. intros k' v' Hin. apply H. by right.
Qed.

Lemma Merge_twice (b o : tree) :
  nodup_keys o = true ->
  Forall (fun kv => forall x, merge_value (Some (merge_value x (snd kv))) (snd kv)
                              = merge_value x (snd kv)) o ->
  Merge (Merge b o) o = Merge b o.
Proof.
  revert b. induction o as [|[k v] r IH]; intros b Hnd Hf; [done|].
  apply nodup_keys_cons in Hnd as [Hn Hnd].
  apply Forall_cons in Hf as [Hv Hr]. simpl in Hv.
  simpl.
  rewrite (Merge_lookup_notin k _ r Hn), alookup_aset_eq, Hv.
  rewrite aset_alookup_same.
  - by apply IH.
  - rewrite (Merge_lookup_notin k _ r Hn). apply alookup_aset_eq.
Qed.

Lemma merge_value_twice (v : value) :
  wf_value v = true ->
  forall x, merge_value (Some (merge_value x v)) v = merge_value x v.
Proof.
  induction v as [| | | |l _|om IH] using value_ind'; intros Hwf x;
    try (by rewrite !merge_value_eq; destruct x as [[]|]).
  apply wf_value_map in Hwf as [Hnd Hwfs].
  assert (Hf : Forall (fun kv => forall x, merge_value (Some (merge_value x (snd kv))) (snd kv)
                                           = merge_value x (snd kv)) om).
  { rewrite Forall_forall in IH, Hwfs |- *. intros kv Hin. by apply IH, Hwfs. }
  assert (Hself : Merge om om = om).
  { apply Merge_fixed. intros k v' Hin. split.
    - by apply nodup_keys_in_alookup.
    - rewrite Stdlib.Lists.List.Forall_forall in Hf. specialize (Hf (k, v') Hin None).
      simpl in Hf. by rewrite merge_value_None in Hf. }
  destruct x as [[| | | | |bm]|]; simpl merge_value;
    try exact (f_equal VMap Hself).
  exact (f_equal VMap (Merge_twice bm om Hnd Hf)).
Qed.

(* ================================================================== *)
(** * Facts about the materialized index *)

Lemma updateIndex_map (key : string) (m : tree) (idx : gmap string string) :
  updateIndex key (VMap m) idx = index_children key m (<[ToLower key := key]> idx).
Proof.
  simpl. generalize (<[ToLower key := key]> idx) as i.
  induction m as [|[ck v] r IH]; intros i; simpl; [done|]. apply IH.
Qed.

Lemma updateIndex_mono (v : value) :
  forall key idx q, is_Some (idx !! q) -> is_Some (updateIndex key v idx !! q).
Proof.
  induction v as [| | | |l Hl|m IH] using value_ind'; intros key idx q H;
    [exact H | .. | rewrite updateIndex_map].
  1-4: simpl; rewrite lookup_insert; case_decide as Hd; [by eexists | done].
  assert (H' : is_Some (<[ToLower key := key]> idx !! q)).
  { rewrite lookup_insert. case_decide as Hd; [by eexists | done]. }
  revert H'. generalize (<[ToLower key := key]> idx) as i.
  clear H. induction m as [|[ck cv] r IHm]; intros i Hi; simpl; [done|].
  apply Forall_cons in IH as [Hcv Hr].
  apply IHm; [done|]. by apply Hcv.
Qed.

Lemma index_children_mono (key : string) (m : tree) :
  forall idx q, is_Some (idx !! q) -> is_Some (index_children key m idx !! q).
Proof.
  induction m as [|[ck cv] r IH]; intros idx q H; simpl; [done|].
  apply IH. by apply updateIndex_mono.
Qed.

Lemma joined_key_nonempty (key ck : string) :
  key <> "" -> joined_key key ck = key ++ "." ++ ck.
Proof.
  intros H. unfold joined_key. destruct key as [|c r]; [done|]. reflexivity.
Qed.

Lemma append_dot_nonempty (key ck : string) : key ++ "." ++ ck <> "".
Proof. destruct key; discriminate. Qed.

Lemma updateIndex_covers (v : value) :
  forall key idx p, key <> "" -> In p (reachable_paths key v) ->
  is_Some (updateIndex key v idx !! ToLower p).
Proof.
  induction v as [| | | |l Hl|m IH] using value_ind'; intros key idx p Hk Hp;
    simpl in Hp; [done | .. | rewrite updateIndex_map].
  1-4: destruct Hp as [<- | []]; simpl; rewrite lookup_insert_eq; by eexists.
  destruct Hp as [<- | Hp].
  { apply index_children_mono. rewrite lookup_insert_eq. by eexists. }
  generalize (<[ToLower key := key]> idx) as i.
  induction m as [|[ck cv] r IHm]; intros i; simpl in Hp |- *; [done|].
  apply Forall_cons in IH as [Hcv Hr].
  apply in_app_or in Hp as [Hp | Hp].
  - apply index_children_mono. rewrite joined_key_nonempty by done.
    apply Hcv; [apply append_dot_nonempty | done].
  - by apply IHm.
Qed.

Lemma updateIndex_empty_key (v : value) :
  forall idx q, q <> "" -> updateIndex "" v idx !! q = idx !! q.
Proof.
  induction v as [| | | |l Hl|m IH] using value_ind'; intros idx q Hq;
    [done | .. | rewrite updateIndex_map].
  1-4: simpl; by rewrite lookup_insert_ne by congruence.
  assert (Hi : (<[ToLower "" := ""]> idx : gmap string string) !! q = idx !! q).
  { by rewrite lookup_insert_ne by (simpl; congruence). }
  rewrite <- Hi. generalize (<[ToLower "" := ""]> idx) as i. clear Hi.
  induction m as [|[ck cv] r IHm]; intros i; simpl; [done|].
  apply Forall_cons in IH as [Hcv Hr].
  rewrite IHm by done. apply Hcv, Hq.
Qed.

Lemma updateIndex_other_nonempty (v : value) :
  forall key idx q, key <> "" ->
  (forall p, In p (reachable_paths key v) -> ToLower p <> q) ->
  updateIndex key v idx !! q = idx !! q.
Proof.
  induction v as [| | | |l Hl|m IH] using value_ind'; intros key idx q Hk Hq;
    [done | .. | rewrite updateIndex_map].
  1-4: simpl; rewrite lookup_insert_ne; [done|]; apply Hq; simpl; auto.
  assert (Hi : (<[ToLower key := key]> idx : gmap string string) !! q = idx !! q).
  { rewrite lookup_insert_ne; [done|]. apply Hq. simpl. auto. }
  rewrite <- Hi. generalize (<[ToLower key := key]> idx) as i. clear Hi.
  assert (Hc : forall ck cv p, In (ck, cv) m -> In p (reachable_paths (key ++ "." ++ ck) cv) ->
                               ToLower p <> q).
  { intros ck cv p Hin Hp. apply Hq. simpl. right.
    apply in_concat. exists (reachable_paths (key ++ "." ++ ck) cv). split; [|done].
    apply in_map_iff. by exists (ck, cv). }
  clear Hq. induction m as [|[ck cv] r IHm]; intros i; simpl; [done|].
  apply Forall_cons in IH as [Hcv Hr].
  rewrite IHm; [| done | intros ck' cv' p Hin; apply Hc; by right].
  rewrite joined_key_nonempty by done.
  apply Hcv; [apply append_dot_nonempty|].
  intros p Hp. apply (Hc ck cv p); [by left | done].
Qed.

Lemma updateIndex_other (key : string) (v : value) (idx : gmap string string) (q : string) :
  (forall p, In p (reachable_paths key v) -> ToLower p <> q) ->
  updateIndex key v idx !! q = idx !! q.
Proof.
  intros Hq. destruct (String.eqb key "") eqn:Ek.
  - apply String.eqb_eq in Ek as ->.
    destruct v; [done| | | | |]; apply updateIndex_empty_key;
      intros ->; apply (Hq ""); first [by left | reflexivity].
  - apply String.eqb_neq in Ek. by apply updateIndex_other_nonempty.
Qed.

Lemma index_entries_other (t : tree) :
  forall idx q, (forall k v p, In (k, v) t -> In p (reachable_paths k v) -> ToLower p <> q) ->
  index_entries t idx !! q = idx !! q.
Proof.
  induction t as [|[k v] r IH]; intros idx q Hq; simpl; [done|].
  rewrite IH by (intros k' v' p Hin; apply Hq; by right).
  apply updateIndex_other. intros p. apply (Hq k v p). by left.
Qed.

Lemma index_entries_mono (t : tree) :
  forall idx q, is_Some (idx !! q) -> is_Some (index_entries t idx !! q).
Proof.
  induction t as [|[k v] r IH]; intros idx q H; simpl; [done|].
  apply IH. by apply updateIndex_mono.
Qed.

Lemma index_entries_covers (t : tree) :
  forall idx k v p, In (k, v) t -> k <> "" -> In p (reachable_paths k v) ->
  is_Some (index_entries t idx !! ToLower p).
Proof.
  induction t as [|[k0 v0] r IH]; intros idx k v p Hin Hk Hp; simpl; [done|].
  destruct Hin as [[= -> ->] | Hin].
  - apply index_entries_mono. by apply updateIndex_covers.
  - by apply (IH _ k v).
Qed.

Lemma Merge_lookup (b o : tree) (k : string) :
  nodup_keys o = true ->
  alookup k (Merge b o) =
  match alookup k o with
  | None => alookup k b
  | Some ov => Some (merge_value (alookup k b) ov)
  end.
Proof.
  revert b. induction o as [|[k' v] r IH]; intros b Hnd; simpl; [done|].
  apply nodup_keys_cons in Hnd as [Hn Hnd].
  destruct (String.eqb k k') eqn:E.
  - apply String.eqb_eq in E as ->.
    rewrite Merge_lookup_notin by done. apply alookup_aset_eq.
  - apply String.eqb_neq in E. rewrite IH by done.
    by rewrite !alookup_aset_ne by done.
Qed.

Lemma length_ToLower (s : string) : String.length (ToLower s) = String.length s.
Proof. induction s; simpl; auto. Qed.

Lemma string_length_app (s t : string) :
  String.length (s ++ t) = String.length s + String.length t.
Proof. induction s; simpl; auto. Qed.

Lemma reachable_paths_length (v : value) :
  forall key p, In p (reachable_paths key v) -> String.length key <= String.length p.
Proof.
  induction v as [| | | |l Hl|m IH] using value_ind'; intros key p Hp;
    simpl in Hp; try (destruct Hp as [<- | []]; lia); [done|].
  destruct Hp as [<- | Hp]; [lia|].
  apply in_concat in Hp as [ps [Hps Hp]].
  apply in_map_iff in Hps as [[ck cv] [<- Hin]].
  rewrite Stdlib.Lists.List.Forall_forall in IH.
  pose proof (IH (ck, cv) Hin (key ++ "." ++ ck) p Hp) as Hl.
  rewrite !string_length_app in Hl. simpl in Hl. lia.
Qed.

Lemma updateIndex_lookup_self (v : value) :
  forall key idx, v <> VNull -> updateIndex key v idx !! ToLower key = Some key.
Proof.
  induction v as [| | | |l Hl|m IH] using value_ind'; intros key idx Hv;
    [done | .. | rewrite updateIndex_map].
  1-4: simpl; apply lookup_insert_eq.
  assert (Hi : (<[ToLower key := key]> idx : gmap string string) !! ToLower key = Some key)
    by apply lookup_insert_eq.
  clear Hv. revert Hi. generalize (<[ToLower key := key]> idx) as i.
  induction m as [|[ck cv] r IHm]; intros i Hi; simpl; [done|].
  apply Forall_cons in IH as [Hcv Hr].
  apply IHm; [done|].
  destruct (String.eqb key "") eqn:Ek.
  - apply String.eqb_eq in Ek as ->. unfold joined_key. simpl.
    destruct cv; [done| | | | |]; by apply Hcv.
  - apply String.eqb_neq in Ek. rewrite joined_key_nonempty by done.
    rewrite updateIndex_other_nonempty; [done | apply append_dot_nonempty |].
    intros p Hp Heq. apply reachable_paths_length in Hp.
    apply (f_equal String.length) in Heq. rewrite !length_ToLower in Heq.
    rewrite !string_length_app in Hp. simpl in Hp. lia.
Qed.

Lemma cs_Get_Set (key : string) (v : value) (cs : ConfigSource) :
  v <> VNull -> cs_Get key (cs_Set key v cs) = Some v.
Proof.
  intros Hv. unfold cs_Get, cs_Set. simpl.
  rewrite updateIndex_lookup_self by done. by rewrite alookup_aset_eq.
Qed.

Lemma Get_nil_iff (os : environ) (key : string) (m : ConfigManager) :
  is_nil (Get os key m) = is_nil (Find os key m).
Proof. unfold Get. by destruct (Find os key m). Qed.

Lemma Find_pflags_env (os : environ) (key : string) (m : ConfigManager) (cs : ConfigSource) :
  Find os key (with_attributes cs m) =
  match pf_Get key (pflags m) with
  | Some val => val
  | None =>
      match env_Get os key (env m) with
      | Some val => val
      | None => match cs_Get key cs with Some val => val | None => VNull end
      end
  end.
Proof. reflexivity. Qed.

Lemma pf_Get_not_nil (key : string) (p : PFlagSource) (x : value) :
  pf_Get key p = Some x -> x <> VNull.
Proof.
  unfold pf_Get. destruct (p !! ToLower key) as [f|]; [|done].
  destruct (flag_changed f); [|done]. by intros [= <-].
Qed.

Lemma env_Get_not_nil (os : environ) (key : string) (e : EnvSource) (x : value) :
  env_Get os key e = Some x -> x <> VNull.
Proof.
  unfold env_Get. destruct (String.eqb _ ""); [done|]. by intros [= <-].
Qed.

(* ================================================================== *)
(** * Claims *)

(** C1: [Find] consults the flag tier first, then the environment tier,
    then the attribute store, and returns the value of the first tier that
    reports the key present, or [nil] ([VNull]) when none does.  The flag
    tier reports a key present exactly when its flag is bound and was
    changed by the user; the environment tier exactly when the key is bound
    and its variable reads non-empty. *)
Theorem Find_precedence (os : environ) (key : string) (m : ConfigManager) :
  Find os key m =
    match pf_Get key (pflags m) with
    | Some val => val
    | None =>
        match env_Get os key (env m) with
        | Some val => val
        | None => match cs_Get key (attributes m) with Some val => val | None => VNull end
        end
    end /\
  (forall val, pf_Get key (pflags m) = Some val <->
     exists f, pflags m !! ToLower key = Some f /\ flag_changed f = true /\
               val = VStr (flag_value f)) /\
  (forall val, env_Get os key (env m) = Some val <->
     exists ek, env m !! key = Some ek /\ Getenv os ek <> "" /\ val = VStr (Getenv os ek)).
Proof.
  split; [reflexivity|]. split; intros val.
  - unfold pf_Get. destruct (pflags m !! ToLower key) as [f|]; split.
    + destruct (flag_changed f) eqn:Hc; intros H; [|done].
      injection H as <-. by exists f.
    + intros (f' & [= <-] & Hc & ->). by rewrite Hc.
    + done.
    + by intros (f' & ? & _).
  - unfold env_Get. destruct (env m !! key) as [ek|]; split.
    + destruct (String.eqb (Getenv os ek) "") eqn:Hg; intros H; [done|].
      injection H as <-. exists ek. split; [done|]. split; [|done].
      by apply String.eqb_neq.
    + intros (ek' & [= <-] & Hne & ->).
      apply String.eqb_neq in Hne. by rewrite Hne.
    + done.
    + by intros (ek' & ? & _).
Qed.

(** C2 (the loop of [ReadPaths] leaves at the first failing path): with
    ["missing.yaml"] unreadable and ["base.yaml"] holding [{a: 1}],
    [ReadPaths("missing.yaml", "base.yaml")] on a fresh manager reports the
    error of ["missing.yaml"] and never loads ["base.yaml"]. *)
Theorem ReadPaths_break_skips_later_paths :
  let readfile := fun p => if String.eqb p "base.yaml" then ReadOk (VMap [("a", VInt 1)])
                           else ReadErr p in
  let '(m, err) := ReadPaths readfile ["missing.yaml"; "base.yaml"] NewConfiguration in
  data (attributes m) = [] /\ err = Some ["missing.yaml"].
Proof. split; reflexivity. Qed.

(** C3 (counterexample): [Set("x", nil)] on a fresh store writes the null
    value into the tree but gives ["x"] no index entry, so the attribute
    store's [Get("x")] reports it absent. *)
Lemma updateIndex_null_no_entry :
  let cs := cs_Set "x" VNull NewConfigSource in
  alookup "x" (data cs) = Some VNull /\ index cs !! "x" = None /\ cs_Get "x" cs = None.
Proof. repeat split; reflexivity. Qed.

(** C3 (as amended): after [Set] or a full-tree load, every path that is
    reachable through non-null values below a non-empty top-level key has an
    entry under its lowercased form in the index; setting a key to [nil]
    leaves the index unchanged (a null gets no entry). *)
Theorem index_covers_non_null_paths :
  (forall key v cs p, key <> "" -> In p (reachable_paths key v) ->
     is_Some (index (cs_Set key v cs) !! ToLower p)) /\
  (forall t cs k v p, In (k, v) t -> k <> "" -> In p (reachable_paths k v) ->
     is_Some (index (FromStringMap t cs) !! ToLower p)) /\
  (forall key cs, index (cs_Set key VNull cs) = index cs).
Proof.
  split; [|split].
  - intros key v cs p Hk Hp. simpl. by apply updateIndex_covers.
  - intros t cs k v p Hin Hk Hp. simpl. by apply (index_entries_covers t _ k v).
  - reflexivity.
Qed.

(** C4 (counterexample): [FromStringMap({})] after [Set("old", 1)] empties
    the tree but keeps the index entry of ["old"]. *)
Lemma FromStringMap_keeps_stale_entry :
  let cs := FromStringMap [] (cs_Set "old" (VInt 1) NewConfigSource) in
  data cs = [] /\ index cs !! "old" = Some "old".
Proof. split; reflexivity. Qed.

(** C4 (as amended): [FromStringMap(t)] replaces the tree by [t] and indexes
    every top-level entry of [t] on top of the current index without
    clearing it: every non-null path of [t] (below a non-empty top-level
    key) gets an entry, and the entry of a lowercased path reached by no
    path of [t] keeps its previous value. *)
Theorem FromStringMap_reindexes_without_clearing (t : tree) (cs : ConfigSource) :
  data (FromStringMap t cs) = t /\
  (forall k v p, In (k, v) t -> k <> "" -> In p (reachable_paths k v) ->
     is_Some (index (FromStringMap t cs) !! ToLower p)) /\
  (forall q, (forall k v p, In (k, v) t -> In p (reachable_paths k v) -> ToLower p <> q) ->
     index (FromStringMap t cs) !! q = index cs !! q).
Proof.
  split; [reflexivity|]. split.
  - intros k v p Hin Hk Hp. simpl. by apply (index_entries_covers t _ k v).
  - intros q Hq. simpl. by apply index_entries_other.
Qed.

(** C5 (the key reaches the environment tier unchanged): after
    [BindEnv("app.level")] with [APP_LEVEL=trace], [Get("app.level")] is
    ["trace"] but [Get("APP.LEVEL")] is [nil]. *)
Theorem Get_env_tier_case_sensitive :
  let os := fun k => if String.eqb k "APP_LEVEL" then "trace" else "" in
  let m := fst (BindEnv ["app.level"] NewConfiguration) in
  Get os "app.level" m = VStr "trace" /\ Get os "APP.LEVEL" m = VNull.
Proof. split; reflexivity. Qed.

(** C6 (counterexample): an earlier [SetDefault("k", nil)] does not block a
    later [SetDefault("k", 1)], which writes [1]. *)
Lemma SetDefault_nil_does_not_block :
  let os := fun _ : string => "" in
  data (attributes (SetDefault os "k" (VInt 1) (SetDefault os "k" VNull NewConfiguration)))
  = [("k", VInt 1)].
Proof. reflexivity. Qed.

(** C6 (as amended): [SetDefault(key, value)] writes into the attribute
    store exactly when [Get(key)] is [nil]; so it is blocked whenever the
    chain resolves a non-nil value for [key] (changed flag, non-empty bound
    environment variable, non-null attribute value), and an earlier
    [SetDefault(key, v)] with a non-null [v] blocks a later one. *)
Theorem SetDefault_blocked_by_non_nil (os : environ) (key : string) (v w : value)
    (m : ConfigManager) :
  SetDefault os key v m = (if is_nil (Get os key m) then mgr_Set key v m else m) /\
  (Find os key m <> VNull -> SetDefault os key v m = m) /\
  (v <> VNull -> SetDefault os key w (SetDefault os key v m) = SetDefault os key v m).
Proof.
  assert (Hblock : forall m', Find os key m' <> VNull -> SetDefault os key w m' = m').
  { intros m' Hf. unfold SetDefault, IsSet. rewrite Get_nil_iff.
    destruct (Find os key m'); [done|..]; reflexivity. }
  split; [|split].
  - unfold SetDefault, IsSet. by destruct (is_nil (Get os key m)).
  - intros Hf. unfold SetDefault, IsSet. rewrite Get_nil_iff.
    destruct (Find os key m); [done|..]; reflexivity.
  - intros Hv. unfold SetDefault at 2 3, IsSet.
    destruct (is_nil (Get os key m)) eqn:Hn; simpl;
      [| apply Hblock; rewrite Get_nil_iff in Hn; by destruct (Find os key m)].
    apply Hblock. rewrite Find_pflags_env, cs_Get_Set by done.
    destruct (pf_Get key (pflags m)) as [x|] eqn:Hp.
    + by apply pf_Get_not_nil in Hp.
    + destruct (env_Get os key (env m)) as [x|] eqn:He; [|done].
      by apply env_Get_not_nil in He.
Qed.

(** C7: the deep merge keeps every key present only in [base]; for a key of
    [overlay] the overlay value replaces the base value unless both are
    nested trees, which are merged recursively (lists are replaced whole). *)
Theorem Merge_lookup_spec (b o : tree) (k : string) (Hnd : nodup_keys o = true) :
  alookup k (Merge b o) =
  match alookup k o with
  | None => alookup k b
  | Some ov =>
      Some (match alookup k b, ov with
            | Some (VMap bm), VMap om => VMap (Merge bm om)
            | _, _ => ov
            end)
  end.
Proof. rewrite Merge_lookup by done. destruct (alookup k o); [|done]. by rewrite merge_value_eq. Qed.

Lemma Merge_lookup_spec_witness :
  nodup_keys [("a", VMap [("y", VInt 3); ("z", VInt 4)]); ("hobbies", VList [VStr "dancing"])] = true /\
  alookup "a" (Merge [("a", VMap [("x", VInt 1); ("y", VInt 2)]);
                      ("hobbies", VList [VStr "skateboarding"; VStr "snowboarding"])]
                     [("a", VMap [("y", VInt 3); ("z", VInt 4)]);
                      ("hobbies", VList [VStr "dancing"])])
  = Some (VMap [("x", VInt 1); ("y", VInt 3); ("z", VInt 4)]).
Proof.
  split; [reflexivity|].
  rewrite Merge_lookup_spec by reflexivity. reflexivity.
Defined.

(** C8: two successive [MergeAttributes] calls with the same decoded
    document (a Go map at every level) leave the same tree as one call. *)
Theorem MergeAttributes_twice (doc : value) (Hwf : wf_value doc = true) (m : ConfigManager) :
  data (attributes (MergeAttributes doc (MergeAttributes doc m))) =
  data (attributes (MergeAttributes doc m)).
Proof.
  simpl. destruct doc as [| | | | |om]; simpl; try reflexivity.
  apply wf_value_map in Hwf as [Hnd Hwfs].
  apply Merge_twice; [done|].
  rewrite Stdlib.Lists.List.Forall_forall in Hwfs |- *.
  intros kv Hin x. apply merge_value_twice. by apply Hwfs.
Qed.

Lemma MergeAttributes_twice_witness :
  let doc := VMap [("a", VMap [("y", VInt 3); ("z", VInt 4)]); ("b", VList [VInt 1])] in
  let m := MergeAttributes (VMap [("a", VMap [("x", VInt 1)])]) NewConfiguration in
  wf_value doc = true /\
  data (attributes (MergeAttributes doc (MergeAttributes doc m))) =
  data (attributes (MergeAttributes doc m)).
Proof.
  split; [reflexivity|]. apply MergeAttributes_twice. reflexivity.
Defined.

(** C9: after [Set("Clothing.Jacket", "leather")] on a fresh manager,
    [Get("clothing.jacket")] and [Get("CLOTHING.JACKET")] are ["leather"]
    and the tree keeps the key ["Clothing.Jacket"] as spelled. *)
Theorem Set_case_insensitive_get (os : environ) :
  let m := mgr_Set "Clothing.Jacket" (VStr "leather") NewConfiguration in
  Get os "clothing.jacket" m = VStr "leather" /\
  Get os "CLOTHING.JACKET" m = VStr "leather" /\
  data (attributes m) = [("Clothing.Jacket", VStr "leather")].
Proof. repeat split; reflexivity. Qed.

(** C10 (counterexample): a stored null is not always read as [nil], and
    [SetDefault] does not always replace it:
    - a null nested at ["a.b"] stays in the tree after
      [SetDefault("a.b", 1)], which adds a literal top-level key ["a.b"];
    - a bound, non-empty environment variable answers a key stored as null;
    - a non-null key ["K"] answers [Get("k")] for a key ["k"] stored as null. *)
Lemma null_key_not_always_absent :
  (let os := fun _ : string => "" in
   let m := MergeAttributes (VMap [("a", VMap [("b", VNull)])]) NewConfiguration in
     Get os "a.b" m = VNull /\
     data (attributes (SetDefault os "a.b" (VInt 1) m))
       = [("a", VMap [("b", VNull)]); ("a.b", VInt 1)]) /\
  (let os := fun k => if String.eqb k "K" then "v" else "" in
   let m := fst (BindEnv ["k"] (MergeAttributes (VMap [("k", VNull)]) NewConfiguration)) in
   Get os "k" m = VStr "v") /\
  (let os := fun _ : string => "" in
   let m := MergeAttributes (VMap [("k", VNull); ("K", VInt 1)]) NewConfiguration in
     Get os "k" m = VInt 1).
Proof. split; [|split]; [split | |]; reflexivity. Qed.

(** C10 (as amended): let a tree [t] be loaded by [FromStringMap] into a
    fresh attribute store.  For a top-level key [k] stored as null in [t],
    such that no non-null path of [t] has the same lowercase spelling as
    [k] and neither a changed flag nor a non-empty bound environment
    variable answers [k], [Get(k)] is [nil], [IsSet(k)] is false, and
    [SetDefault(k, v)] replaces the stored null by [v]. *)
Theorem null_key_reads_as_absent (os : environ) (t : tree) (k : string) (v : value)
    (pf : PFlagSource) (e : EnvSource)
    (Hk : alookup k t = Some VNull)
    (Hu : forall k' v' p, In (k', v') t -> In p (reachable_paths k' v') -> ToLower p <> ToLower k)
    (Hpf : pf_Get k pf = None) (He : env_Get os k e = None) :
  let m := {| attributes := FromStringMap t NewConfigSource; pflags := pf; env := e |} in
  Get os k m = VNull /\ IsSet os k m = false /\
  data (attributes (SetDefault os k v m)) = aset k v t /\
  alookup k (data (attributes (SetDefault os k v m))) = Some v.
Proof.
  intros m. subst m.
  assert (Hidx : index (FromStringMap t NewConfigSource) !! ToLower k = None).
  { simpl. by rewrite index_entries_other. }
  set (m := {| attributes := FromStringMap t NewConfigSource; pflags := pf; env := e |}).
  assert (Hg : Get os k m = VNull).
  { unfold Get, Find. subst m. cbn [pflags env attributes].
    rewrite Hpf, He. unfold cs_Get. by rewrite Hidx. }
  assert (Hs : IsSet os k m = false) by (unfold IsSet; by rewrite Hg).
  unfold SetDefault. rewrite Hs. simpl.
  split; [done|]. split; [done|]. split; [done|]. apply alookup_aset_eq.
Qed.

Lemma null_key_reads_as_absent_witness :
  let os := fun _ : string => "" in
  let t := [("k", VNull); ("app", VMap [("level", VStr "info")])] in
  let m := {| attributes := FromStringMap t NewConfigSource; pflags := ∅; env := ∅ |} in
  Get os "k" m = VNull /\ IsSet os "k" m = false /\
  data (attributes (SetDefault os "k" (VInt 1) m)) = aset "k" (VInt 1) t /\
  alookup "k" (data (attributes (SetDefault os "k" (VInt 1) m))) = Some (VInt 1).
Proof.
  apply null_key_reads_as_absent.
  - reflexivity.
  - intros k' v' p Hin Hp. simpl in Hin.
    destruct Hin as [[= <- <-] | [[= <- <-] | []]]; simpl in Hp;
      repeat (destruct Hp as [<- | Hp]; [discriminate|]); done.
  - reflexivity.
  - reflexivity.
Defined.

(* ================================================================== *)
(** * Facts used by the further properties *)

Lemma string_app_cons (c : ascii) (s t : string) : String c s ++ t = String c (s ++ t).
Proof. reflexivity. Qed.

Lemma string_app_nil (s : string) : s ++ "" = s.
Proof. induction s as [|c s IH]; [reflexivity|]. exact (f_equal (String c) IH). Qed.

Lemma string_app_assoc (a b c : string) : (a ++ b) ++ c = a ++ b ++ c.
Proof. induction a as [|x a IH]; [reflexivity|]. exact (f_equal (String x) IH). Qed.

Lemma ToLower_nonempty (s : string) : s <> "" -> ToLower s <> "".
Proof. destruct s; simpl; congruence. Qed.

Lemma normalize_id (v : value) : normalize v = v.
Proof. by destruct v. Qed.

Lemma Get_eq_Find (os : environ) (key : string) (m : ConfigManager) :
  Get os key m = Find os key m.
Proof. unfold Get. destruct (Find os key m); [done|..]; apply normalize_id. Qed.

Lemma cs_Get_Set_lower (key key' : string) (v : value) (cs : ConfigSource) :
  v <> VNull -> ToLower key' = ToLower key -> cs_Get key' (cs_Set key v cs) = Some v.
Proof.
  intros Hv Hk. unfold cs_Get, cs_Set. simpl. rewrite Hk.
  rewrite updateIndex_lookup_self by done. by rewrite alookup_aset_eq.
Qed.

Lemma Find_not_nil (os : environ) (key : string) (m : ConfigManager) (v : value) :
  cs_Get key (attributes m) = Some v -> v <> VNull -> Find os key m <> VNull.
Proof.
  intros Ha Hv. unfold Find.
  destruct (pf_Get key (pflags m)) as [x|] eqn:Hp; [by apply pf_Get_not_nil in Hp|].
  destruct (env_Get os key (env m)) as [x|] eqn:He; [by apply env_Get_not_nil in He|].
  by rewrite Ha.
Qed.

(** Splitting a dotted path. *)

Lemma split_dot_plain (s : string) : has_dot s = false -> split_dot s = [s].
Proof.
  induction s as [|c r IH]; simpl; [done|].
  intros H. apply orb_false_iff in H as [Hc Hr]. rewrite Hc, IH by done. done.
Qed.

Lemma split_dot_app (a s : string) :
  has_dot a = false -> split_dot (a ++ "." ++ s) = a :: split_dot s.
Proof.
  induction a as [|c r IH]; [done|]. rewrite string_app_cons. simpl.
  intros H. apply orb_false_iff in H as [Hc Hr]. rewrite Hc, IH by done. done.
Qed.

Lemma split_dot_join (k : string) (r : list string) :
  has_dot k = false -> Forall (fun s => has_dot s = false) r ->
  split_dot (k ++ dot_suffix r) = k :: r.
Proof.
  revert k. induction r as [|s r IH]; intros k Hk Hr; simpl.
  - rewrite string_app_nil. by apply split_dot_plain.
  - apply Forall_cons in Hr as [Hs Hr]. rewrite split_dot_app by done. by rewrite IH.
Qed.

Lemma has_dot_app_dot (a s : string) : has_dot (a ++ "." ++ s) = true.
Proof.
  induction a as [|c r IH]; [done|]. rewrite string_app_cons. simpl. by rewrite IH, orb_true_r.
Qed.

Lemma alookup_In (k : string) (v : value) (m : tree) : alookup k m = Some v -> In (k, v) m.
Proof.
  induction m as [|[k' v'] r IH]; simpl; [done|].
  destruct (String.eqb k k') eqn:E.
  - intros [= <-]. apply String.eqb_eq in E as ->. by left.
  - intros H. right. by apply IH.
Qed.

Lemma walk_reachable (rest : list string) :
  forall k cur v, walk (k :: rest) cur = Some v -> v <> VNull ->
  exists v1, In (k, v1) cur /\ forall key, In (key ++ dot_suffix rest) (reachable_paths key v1).
Proof.
  induction rest as [|k2 r IH]; intros k cur v Hw Hv.
  - simpl in Hw. exists v. split; [by apply alookup_In|].
    intros key. simpl. rewrite string_app_nil. destruct v; simpl; auto; done.
  - cbn [walk] in Hw. destruct (alookup k cur) as [v1|] eqn:Hk; [|done].
    destruct (IH k2 (toStringMap v1) v Hw Hv) as (v2 & Hin & Hr).
    exists v1. split; [by apply alookup_In|].
    destruct v1 as [| | | | |m1]; simpl in Hin; try done.
    intros key. simpl. right. apply in_concat.
    exists (reachable_paths (key ++ "." ++ k2) v2).
    split; [apply in_map_iff; by exists (k2, v2)|].
    specialize (Hr (key ++ "." ++ k2)). rewrite string_app_assoc in Hr. exact Hr.
Qed.

(** [updateIndex] below a non-empty key writes the reachable paths in order. *)

Lemma updateIndex_fold (v : value) :
  forall key idx, key <> "" ->
  updateIndex key v idx = fold_left (fun i p => <[ToLower p := p]> i) (reachable_paths key v) idx.
Proof.
  induction v as [| | | |l Hl|m IH] using value_ind'; intros key idx Hk;
    [done | .. | rewrite updateIndex_map]; try reflexivity.
  simpl. generalize (<[ToLower key := key]> idx) as i.
  induction m as [|[ck cv] r IHm]; intros i; simpl; [done|].
  apply Forall_cons in IH as [Hcv Hr].
  rewrite fold_left_app, <- IHm by done.
  rewrite joined_key_nonempty by done. rewrite Hcv by apply append_dot_nonempty. done.
Qed.

Lemma fold_ins_other (ps : list string) (q : string) :
  forall (i : gmap string string), (forall p, In p ps -> ToLower p <> q) ->
  fold_left (fun i p => <[ToLower p := p]> i) ps i !! q = i !! q.
Proof.
  induction ps as [|p r IH]; intros i H; simpl; [done|].
  rewrite IH by (intros p' Hp'; apply H; by right).
  apply lookup_insert_ne. apply H. by left.
Qed.

Lemma fold_ins_unique (ps : list string) (P : string) :
  forall (i : gmap string string), In P ps ->
  (forall p, In p ps -> ToLower p = ToLower P -> p = P) ->
  fold_left (fun i p => <[ToLower p := p]> i) ps i !! ToLower P = Some P.
Proof.
  induction ps as [|p r IH]; intros i Hin Hu; simpl; [done|].
  destruct (in_dec string_dec P r) as [Hr | Hr].
  - apply IH; [done|]. intros p' Hp'. apply Hu. by right.
  - destruct Hin as [-> | Hin]; [|done].
    rewrite fold_ins_other.
    + apply lookup_insert_eq.
    + intros p' Hp' Heq. apply Hr. rewrite <- (Hu p'); [done | by right | done].
Qed.

Lemma index_entries_other_nonempty (t : tree) (q : string) :
  forall idx, q <> "" ->
  (forall k v p, In (k, v) t -> k <> "" -> In p (reachable_paths k v) -> ToLower p <> q) ->
  index_entries t idx !! q = idx !! q.
Proof.
  induction t as [|[k v] r IH]; intros idx Hq H; simpl; [done|].
  rewrite IH; [| done | intros k' v' p Hin; apply H; by right].
  destruct (String.eqb k "") eqn:Ek.
  - apply String.eqb_eq in Ek as ->. by apply updateIndex_empty_key.
  - apply String.eqb_neq in Ek. apply updateIndex_other_nonempty; [done|].
    intros p Hp. apply (H k v p); [by left | done | done].
Qed.

Lemma index_entries_unique (t : tree) (P : string) :
  forall idx, P <> "" ->
  (exists k v, In (k, v) t /\ k <> "" /\ In P (reachable_paths k v)) ->
  (forall k v p, In (k, v) t -> In p (reachable_paths k v) -> ToLower p = ToLower P -> p = P) ->
  index_entries t idx !! ToLower P = Some P.
Proof.
  induction t as [|[k0 v0] r IH]; intros idx HP Hex Hu; simpl.
  { by destruct Hex as (? & ? & [] & _). }
  assert (Hdec : forall kv : string * value,
            {fst kv <> "" /\ In P (reachable_paths (fst kv) (snd kv))} +
            {~ (fst kv <> "" /\ In P (reachable_paths (fst kv) (snd kv)))}).
  { intros [k v]. simpl. destruct (string_dec k "") as [->|Hk]; [right; tauto|].
    destruct (in_dec string_dec P (reachable_paths k v)); [left|right]; tauto. }
  destruct (Stdlib.Lists.List.Exists_dec _ r Hdec) as [Hr | Hr].
  - apply Stdlib.Lists.List.Exists_exists in Hr as ([k v] & Hin & Hk & Hp).
    apply IH; [done | by exists k, v | ].
    intros k' v' p Hin'. apply Hu. by right.
  - destruct Hex as (k & v & [[= <- <-] | Hin] & Hk & Hp).
    2: { exfalso. apply Hr. apply Stdlib.Lists.List.Exists_exists. by exists (k, v). }
    rewrite index_entries_other_nonempty.
    + rewrite updateIndex_fold by done. apply fold_ins_unique; [done|].
      intros p Hp' Heq. apply (Hu k0 v0); [by left | done | done].
    + by apply ToLower_nonempty.
    + intros k v p Hin Hk' Hp' Heq. apply Hr. apply Stdlib.Lists.List.Exists_exists.
      exists (k, v). simpl. split; [done|]. split; [done|].
      rewrite <- (Hu k v p); [done | by right | done | done].
Qed.

(** [filepath.Ext] and [getConfigType]. *)

Lemma plain_name_get (s : string) (n : nat) (c : ascii) :
  plain_name s = true -> String.get n s = Some c ->
  Ascii.eqb c "." = false /\ IsPathSeparator c = false.
Proof.
  revert n. induction s as [|c' r IH]; intros n Hp Hg; [done|].
  simpl in Hp. apply andb_prop in Hp as [Hp Hr]. apply andb_prop in Hp as [Hd Hs].
  destruct n as [|n]; simpl in Hg.
  - injection Hg as <-. apply negb_true_iff in Hd, Hs. done.
  - by apply (IH n).
Qed.

Lemma string_get_lt (s : string) (n : nat) :
  n < String.length s -> exists c, String.get n s = Some c.
Proof.
  revert n. induction s as [|c r IH]; intros n H; simpl in H; [lia|].
  destruct n as [|n]; simpl; [by exists c|]. apply IH. lia.
Qed.

Lemma ext_loop_skip (pre suf : string) (j : nat) :
  plain_name suf = true -> j <= String.length suf ->
  ext_loop (pre ++ suf) (String.length pre + j) = ext_loop (pre ++ suf) (String.length pre).
Proof.
  intros Hp. induction j as [|j IH]; intros Hj; [by rewrite Nat.add_0_r|].
  rewrite Nat.add_succ_r. cbn [ext_loop].
  replace (String.get (String.length pre + j) (pre ++ suf)) with (String.get j suf)
    by (rewrite Nat.add_comm; apply append_correct2).
  destruct (string_get_lt suf j) as [c Hg]; [lia|]. rewrite Hg.
  destruct (plain_name_get suf j c Hp Hg) as [Hd Hs]. rewrite Hs, Hd. apply IH. lia.
Qed.

Lemma substring_0_full (s : string) : substring 0 (String.length s) s = s.
Proof. induction s as [|c r IH]; [done|]. simpl. by rewrite IH. Qed.

Lemma substring_app (a b : string) :
  substring (String.length a) (String.length b) (a ++ b) = b.
Proof.
  induction a as [|c r IH]; [apply substring_0_full|]. rewrite string_app_cons. simpl. exact IH.
Qed.

Lemma Ext_dot (base ext : string) :
  plain_name ext = true -> Ext (base ++ "." ++ ext) = String "." ext.
Proof.
  intros Hp. unfold Ext.
  assert (Hpath : base ++ "." ++ ext = (base ++ ".") ++ ext)
    by (symmetry; apply string_app_assoc).
  rewrite Hpath, string_length_app, ext_loop_skip by (done || lia).
  replace (String.length (base ++ ".")) with (S (String.length base))
    by (rewrite string_length_app; simpl; lia).
  cbn [ext_loop]. rewrite <- Hpath.
  replace (String.get (String.length base) (base ++ "." ++ ext)) with (Some "."%char)
    by (rewrite <- (Nat.add_0_l (String.length base)), <- append_correct2; reflexivity).
  change (IsPathSeparator "."%char) with false. change (Ascii.eqb "." ".") with true.
  cbv iota.
  replace (String.length (base ++ "." ++ ext) - String.length base)
    with (String.length ("." ++ ext)) by (rewrite !string_length_app; lia).
  exact (substring_app base ("." ++ ext)).
Qed.

Lemma getConfigType_ext (base ext : string) :
  plain_name ext = true -> ext <> "" -> getConfigType (base ++ "." ++ ext) = ext.
Proof.
  intros Hp Hne. unfold getConfigType. rewrite Ext_dot by done.
  destruct ext as [|c r]; [done|]. simpl. by rewrite substring_0_full.
Qed.

Lemma getConfigType_dir (dir file : string) :
  plain_name file = true -> getConfigType (dir ++ "/" ++ file) = "".
Proof.
  intros Hp. unfold getConfigType, Ext.
  assert (Hpath : dir ++ "/" ++ file = (dir ++ "/") ++ file)
    by (symmetry; apply string_app_assoc).
  rewrite Hpath, string_length_app, ext_loop_skip by (done || lia).
  replace (String.length (dir ++ "/")) with (S (String.length dir))
    by (rewrite string_length_app; simpl; lia).
  cbn [ext_loop]. rewrite <- Hpath.
  replace (String.get (String.length dir) (dir ++ "/" ++ file)) with (Some "/"%char)
    by (rewrite <- (Nat.add_0_l (String.length dir)), <- append_correct2; reflexivity).
  reflexivity.
Qed.

(** [envamize] *)

Lemma envamize_cons (c : ascii) (r : string) :
  envamize (String c r) =
  String (if Ascii.eqb (ascii_upper c) "." then "_"%char else ascii_upper c) (envamize r).
Proof. reflexivity. Qed.


(** [ReadPaths] *)

Lemma read_loop_ok (readfile : string -> read_result) (ok : list (string * value)) :
  forall tl mc errs cs, data cs = mc ->
  Forall (fun pv => readfile (fst pv) = ReadOk (snd pv)) ok ->
  exists cs', data cs' = fold_left (fun acc d => Merge acc (toStringMap d)) (map snd ok) mc /\
    read_loop readfile (map fst ok ++ tl) mc errs cs =
    read_loop readfile tl (fold_left (fun acc d => Merge acc (toStringMap d)) (map snd ok) mc) errs cs'.
Proof.
  induction ok as [|[p d] r IH]; intros tl mc errs cs Hd Hok; simpl.
  - by exists cs.
  - apply Forall_cons in Hok as [Hp Hr]. simpl in Hp. rewrite Hp.
    by apply IH.
Qed.

(* ================================================================== *)
(** * Further properties of the code *)

(** X1: [BindEnv()] with no argument reports an error and binds nothing;
    a key with no binding reads as absent from the environment tier,
    whatever the process environment holds ([os.Getenv("")] is [""]). *)
Theorem BindEnv_no_key_unbound_absent (m : ConfigManager) :
  BindEnv [] m = (m, Some "BindEnv missing key to bind to") /\
  (forall os q, env m !! q = None -> env_Get os q (env m) = None).
Proof.
  split; [by destruct m|].
  intros os q Hq. unfold env_Get. by rewrite Hq.
Qed.

(** X2: after [BindEnv(k)] for a non-empty [k], the environment tier
    answers the lowercased key with the variable [envamize(k)] when that
    variable is non-empty, and reports it absent otherwise; every other key
    reads as before. *)
Theorem BindEnv_then_Get (os : environ) (k : string) (m : ConfigManager) (Hk : k <> "") :
  let r := BindEnv [k] m in
  snd r = None /\
  env_Get os (ToLower k) (env (fst r)) =
    (if String.eqb (os (envamize k)) "" then None else Some (VStr (os (envamize k)))) /\
  (forall q, q <> ToLower k -> env_Get os q (env (fst r)) = env_Get os q (env m)).
Proof.
  simpl. split; [done|]. split.
  - unfold env_Get.
    replace (<[ToLower k := envamize k]> (env m) !! ToLower k) with (Some (envamize k))
      by (symmetry; apply lookup_insert_eq).
    unfold Getenv.
    assert (Hne : String.eqb (envamize k) "" = false).
    { apply String.eqb_neq. destruct k as [|c r]; [done|]. rewrite envamize_cons. discriminate. }
    by rewrite Hne.
  - intros q Hq. unfold env_Get.
    replace (<[ToLower k := envamize k]> (env m) !! q) with (env m !! q)
      by (symmetry; apply lookup_insert_ne; congruence).
    reflexivity.
Qed.

Lemma BindEnv_then_Get_witness :
  let os := fun v => if String.eqb v "APP_LEVEL" then "trace" else "" in
  "app.level" <> "" /\
  (let r := BindEnv ["app.level"] NewConfiguration in
   snd r = None /\
   env_Get os (ToLower "app.level") (env (fst r)) =
     (if String.eqb (os (envamize "app.level")) "" then None
      else Some (VStr (os (envamize "app.level")))) /\
   (forall q, q <> ToLower "app.level" ->
      env_Get os q (env (fst r)) = env_Get os q (env NewConfiguration))).
Proof.
  intros os. split; [discriminate|].
  apply (BindEnv_then_Get os "app.level" NewConfiguration). discriminate.
Defined.

(** X3: [BindEnv(k0, k1, ...)] binds [k1] (to the variable [envamize(k1)])
    and ignores [k0] and the rest: the environment tier reads [k0] as before
    unless [k0] is the lowercased [k1]. *)
Theorem BindEnv_two_args_binds_second (os : environ) (k0 k1 : string) (rest : list string)
    (m : ConfigManager) (Hne : k0 <> ToLower k1) :
  BindEnv (k0 :: k1 :: rest) m = BindEnv [k1] m /\
  env_Get os k0 (env (fst (BindEnv (k0 :: k1 :: rest) m))) = env_Get os k0 (env m).
Proof.
  split; [reflexivity|]. unfold env_Get. cbn [BindEnv env_Bind fst env].
  replace (<[ToLower k1 := envamize k1]> (env m) !! k0) with (env m !! k0)
    by (symmetry; apply lookup_insert_ne; congruence).
  reflexivity.
Qed.

Lemma BindEnv_two_args_binds_second_witness :
  let os := fun v => if String.eqb v "PORT" then "8080" else "" in
  "port" <> ToLower "APP_PORT" /\
  BindEnv ["port"; "APP_PORT"] NewConfiguration = BindEnv ["APP_PORT"] NewConfiguration /\
  env_Get os "port" (env (fst (BindEnv ["port"; "APP_PORT"] NewConfiguration))) =
  env_Get os "port" (env NewConfiguration).
Proof.
  intros os. split; [discriminate|].
  apply (BindEnv_two_args_binds_second os "port" "APP_PORT" [] NewConfiguration). discriminate.
Defined.


(** X5: in the attribute store, [Set(key, v)] with a non-null [v] is read
    back by [Get] under any spelling of [key] with the same lowercase form,
    whatever the store held before. *)
Theorem cs_Set_Get_any_case (key key' : string) (v : value) (cs : ConfigSource)
    (Hv : v <> VNull) (Hk : ToLower key' = ToLower key) :
  cs_Get key' (cs_Set key v cs) = Some v /\
  alookup key (data (cs_Set key v cs)) = Some v.
Proof. split; [by apply cs_Get_Set_lower | apply alookup_aset_eq]. Qed.

Lemma cs_Set_Get_any_case_witness :
  let cs := cs_Set "Clothing.Jacket" (VStr "wool") NewConfigSource in
  VStr "leather" <> VNull /\ ToLower "CLOTHING.jacket" = ToLower "Clothing.Jacket" /\
  cs_Get "CLOTHING.jacket" (cs_Set "Clothing.Jacket" (VStr "leather") cs) = Some (VStr "leather") /\
  alookup "Clothing.Jacket" (data (cs_Set "Clothing.Jacket" (VStr "leather") cs))
    = Some (VStr "leather").
Proof.
  intros cs. split; [discriminate|]. split; [reflexivity|].
  apply cs_Set_Get_any_case; [discriminate | reflexivity].
Defined.

(** X6: after [FromStringMap(t)] on any store, [Get] resolves a nested
    path [k1.k2...kn] (non-empty segments without [.]) under any spelling to
    the non-null value that the segment walk reaches in [t], provided the
    top-level keys of [t] hold no [.] and no other path of [t] has the same
    lowercase form. *)
Theorem FromStringMap_nested_get (t : tree) (cs : ConfigSource) (ks : list string)
    (v : value) (q : string)
    (Hseg : Forall (fun s => s <> "" /\ has_dot s = false) ks)
    (Htop : Forall (fun kv => has_dot (fst kv) = false) t)
    (Hwalk : walk ks t = Some v) (Hv : v <> VNull)
    (Huniq : forall k' v' p, In (k', v') t -> In p (reachable_paths k' v') ->
               ToLower p = ToLower (join_dot ks) -> p = join_dot ks)
    (Hq : ToLower q = ToLower (join_dot ks)) :
  cs_Get q (FromStringMap t cs) = Some v.
Proof.
  destruct ks as [|k r]; [done|].
  apply Forall_cons in Hseg as [[Hk Hkd] Hr].
  destruct (walk_reachable r k t v Hwalk Hv) as (v1 & Hin & Hreach).
  unfold cs_Get. cbn [index FromStringMap UpdateIndices data]. rewrite Hq.
  rewrite index_entries_unique.
  - destruct r as [|s r'].
    + cbn [join_dot dot_suffix]. rewrite string_app_nil. simpl in Hwalk. by rewrite Hwalk.
    + destruct (alookup (join_dot (k :: s :: r')) t) as [x|] eqn:Ha.
      * exfalso. apply alookup_In in Ha.
        rewrite Stdlib.Lists.List.Forall_forall in Htop.
        specialize (Htop _ Ha). simpl in Htop.
        cbn [join_dot dot_suffix] in Htop. by rewrite has_dot_app_dot in Htop.
      * cbn [join_dot]. rewrite split_dot_join; [exact Hwalk | done |].
        eapply Forall_impl; [exact Hr|]. by intros x [_ Hx].
  - cbn [join_dot]. destruct k; [done|]. discriminate.
  - exists k, v1. split; [done|]. split; [done|]. apply Hreach.
  - exact Huniq.
Qed.

Lemma FromStringMap_nested_get_witness :
  let t := [("app", VMap [("database", VMap [("host", VStr "localhost")])])] in
  cs_Get "APP.Database.HOST" (FromStringMap t NewConfigSource) = Some (VStr "localhost").
Proof.
  intros t. apply (FromStringMap_nested_get t NewConfigSource ["app"; "database"; "host"]).
  - repeat constructor; discriminate.
  - repeat constructor.
  - reflexivity.
  - discriminate.
  - intros k' v' p Hin Hp Heq. simpl in Hin.
    destruct Hin as [[= <- <-] | []]. simpl in Hp.
    repeat (destruct Hp as [<- | Hp]; [vm_compute in Heq; first [discriminate | reflexivity] |]).
    done.
  - reflexivity.
Defined.

(** X7: on the manager, [Set(key, v)] with a non-null [v] is read back by
    [Get] under any spelling of [key] with the same lowercase form when no
    changed flag and no bound environment variable answers that spelling;
    the key is then [InConfig] and [IsSet]. *)
Theorem Set_then_Get_InConfig (os : environ) (key key' : string) (v : value)
    (m : ConfigManager) (Hv : v <> VNull) (Hk : ToLower key' = ToLower key)
    (Hpf : pf_Get key' (pflags m) = None) (He : env_Get os key' (env m) = None) :
  Get os key' (mgr_Set key v m) = v /\ InConfig key' (mgr_Set key v m) = true /\
  IsSet os key' (mgr_Set key v m) = true.
Proof.
  assert (Hc : cs_Get key' (attributes (mgr_Set key v m)) = Some v)
    by (apply cs_Get_Set_lower; done).
  assert (Hg : Get os key' (mgr_Set key v m) = v).
  { rewrite Get_eq_Find. unfold Find. cbn [pflags env mgr_Set with_attributes].
    rewrite Hpf, He. by rewrite Hc. }
  split; [done|]. split.
  - unfold InConfig. by rewrite Hc.
  - unfold IsSet. rewrite Hg. by destruct v.
Qed.

Lemma Set_then_Get_InConfig_witness :
  let os := fun _ : string => "" in
  let m := mgr_Set "port" (VInt 80) NewConfiguration in
  Get os "PORT" (mgr_Set "Port" (VInt 8080) m) = VInt 8080 /\
  InConfig "PORT" (mgr_Set "Port" (VInt 8080) m) = true /\
  IsSet os "PORT" (mgr_Set "Port" (VInt 8080) m) = true.
Proof.
  intros os m. apply Set_then_Get_InConfig; [discriminate | reflexivity | reflexivity | reflexivity].
Defined.

(** X8: on a fresh manager nothing is set, whatever the process environment
    holds, and [SetDefault(key, v)] with a non-null [v] makes [Get(key)]
    return [v]. *)
Theorem SetDefault_fresh (os : environ) (key : string) (v : value) (Hv : v <> VNull) :
  IsSet os key NewConfiguration = false /\
  Get os key (SetDefault os key v NewConfiguration) = v.
Proof.
  assert (Hs : IsSet os key NewConfiguration = false) by reflexivity.
  split; [done|]. unfold SetDefault. rewrite Hs. cbn [negb].
  rewrite Get_eq_Find. unfold Find. cbn [pflags env mgr_Set with_attributes attributes].
  rewrite cs_Get_Set_lower by done. reflexivity.
Qed.

Lemma SetDefault_fresh_witness :
  let os := fun v => if String.eqb v "PORT" then "8080" else "" in
  IsSet os "port" NewConfiguration = false /\
  Get os "port" (SetDefault os "port" (VInt 1138) NewConfiguration) = VInt 1138.
Proof. intros os. apply SetDefault_fresh. discriminate. Defined.

(** X9: [ReadPaths(p1, ..., pn)] where every [pi] reads as the document
    [di] leaves the tree [Merge(...Merge(Merge(t, d1), d2)..., dn)] of the
    current tree [t] and returns [nil]; when a path [bad] that fails to read
    follows them, the tree is the same, the later paths are not read and the
    error holds exactly the error of [bad]. *)
Theorem ReadPaths_merges_until_first_error (readfile : string -> read_result)
    (ok : list (string * value)) (m : ConfigManager)
    (Hok : Forall (fun pv => readfile (fst pv) = ReadOk (snd pv)) ok) :
  let merged := fold_left (fun acc d => Merge acc (toStringMap d)) (map snd ok)
                          (data (attributes m)) in
  data (attributes (fst (ReadPaths readfile (map fst ok) m))) = merged /\
  snd (ReadPaths readfile (map fst ok) m) = None /\
  (forall bad err rest, readfile bad = ReadErr err ->
     data (attributes (fst (ReadPaths readfile (map fst ok ++ bad :: rest) m))) = merged /\
     snd (ReadPaths readfile (map fst ok ++ bad :: rest) m) = Some [err]).
Proof.
  intros merged. unfold ReadPaths.
  split; [|split].
  - destruct (read_loop_ok readfile ok [] (ToStringMap (attributes m)) [] (attributes m)
                eq_refl Hok) as (cs' & Hd & Hl).
    rewrite app_nil_r in Hl. rewrite Hl. exact Hd.
  - destruct (read_loop_ok readfile ok [] (ToStringMap (attributes m)) [] (attributes m)
                eq_refl Hok) as (cs' & Hd & Hl).
    rewrite app_nil_r in Hl. by rewrite Hl.
  - intros bad err rest Hbad.
    destruct (read_loop_ok readfile ok (bad :: rest) (ToStringMap (attributes m)) []
                (attributes m) eq_refl Hok) as (cs' & Hd & Hl).
    rewrite Hl. simpl. rewrite Hbad. split; [exact Hd | done].
Qed.

Lemma ReadPaths_merges_until_first_error_witness :
  let readfile := fun p =>
    if String.eqb p "base.yaml" then ReadOk (VMap [("a", VInt 1); ("b", VInt 2)])
    else if String.eqb p "override.yaml" then ReadOk (VMap [("b", VInt 3)])
    else ReadErr p in
  let ok := [("base.yaml", VMap [("a", VInt 1); ("b", VInt 2)]);
             ("override.yaml", VMap [("b", VInt 3)])] in
  let merged := fold_left (fun acc d => Merge acc (toStringMap d)) (map snd ok)
                          (data (attributes NewConfiguration)) in
  data (attributes (fst (ReadPaths readfile (map fst ok) NewConfiguration))) = merged /\
  snd (ReadPaths readfile (map fst ok) NewConfiguration) = None /\
  (forall bad err rest, readfile bad = ReadErr err ->
     data (attributes (fst (ReadPaths readfile (map fst ok ++ bad :: rest) NewConfiguration)))
       = merged /\
     snd (ReadPaths readfile (map fst ok ++ bad :: rest) NewConfiguration) = Some [err]).
Proof.
  intros readfile ok. apply ReadPaths_merges_until_first_error.
  repeat constructor.
Defined.

(** X10: [MergeAttributes(val)] with a [val] that [cast.ToStringMap] turns
    into an empty map (a scalar, a list, [nil] or an empty map) leaves the
    tree as it was, keeps every index entry, and touches neither the flag nor
    the environment tier. *)
Theorem MergeAttributes_non_map (val : value) (m : ConfigManager)
    (Hval : toStringMap val = []) :
  data (attributes (MergeAttributes val m)) = data (attributes m) /\
  (forall q, is_Some (index (attributes m) !! q) ->
     is_Some (index (attributes (MergeAttributes val m)) !! q)) /\
  pflags (MergeAttributes val m) = pflags m /\ env (MergeAttributes val m) = env m.
Proof.
  unfold MergeAttributes. rewrite Hval. cbn [Merge].
  split; [reflexivity|]. split; [|done].
  intros q Hq. cbn. by apply index_entries_mono.
Qed.

Lemma MergeAttributes_non_map_witness :
  let m := mgr_Set "a" (VInt 1) NewConfiguration in
  data (attributes (MergeAttributes (VList [VInt 2]) m)) = data (attributes m) /\
  (forall q, is_Some (index (attributes m) !! q) ->
     is_Some (index (attributes (MergeAttributes (VList [VInt 2]) m)) !! q)) /\
  pflags (MergeAttributes (VList [VInt 2]) m) = pflags m /\
  env (MergeAttributes (VList [VInt 2]) m) = env m.
Proof. intros m. apply MergeAttributes_non_map. reflexivity. Defined.

(** X11: [getConfigType] returns the text after the last [.] of the file
    name: [getConfigType(base + "." + ext) = ext] for a non-empty [ext] with
    no [.] and no [/]; a [.] in a directory name is not an extension. *)
Theorem getConfigType_extension (base ext dir file : string)
    (Hext : plain_name ext = true) (Hne : ext <> "") (Hfile : plain_name file = true) :
  getConfigType (base ++ "." ++ ext) = ext /\ getConfigType (dir ++ "/" ++ file) = "".
Proof. split; [by apply getConfigType_ext | by apply getConfigType_dir]. Qed.

Lemma getConfigType_extension_witness :
  getConfigType ("conf.d/app" ++ "." ++ "yaml") = "yaml" /\
  getConfigType ("conf.d" ++ "/" ++ "app") = "".
Proof.
  apply (getConfigType_extension "conf.d/app" "yaml" "conf.d" "app");
    [reflexivity | discriminate | reflexivity].
Defined.

(** X12: [ExportAs] answers [UnsupportedConfigError(format)] exactly for a
    format other than ["yaml"], ["json"] and ["toml"]; for those three it
    never returns an error: it returns the decoded document, or the process
    exits through [Fatalf] on a parse error. *)
Theorem ExportAs_dispatch (yaml json toml : string -> option value) (format buf : string) :
  (ExportAs yaml json toml format buf = Unsupported format <->
     ~ In format ["yaml"; "json"; "toml"]) /\
  (In format ["yaml"; "json"; "toml"] ->
     (exists v, ExportAs yaml json toml format buf = Exported v) \/
     ExportAs yaml json toml format buf = Fatal).
Proof.
  unfold ExportAs.
  destruct (String.eqb_spec format "yaml") as [->|H1];
  [|destruct (String.eqb_spec format "json") as [->|H2];
  [|destruct (String.eqb_spec format "toml") as [->|H3]]].
  1-3: split; [split; [by destruct (_ buf) | intros Hn; exfalso; apply Hn; simpl; tauto]
             | intros _; unfold decoded; destruct (_ buf); [left; by eexists | by right]].
  split; [split; [intros _; simpl; intuition congruence | done]|].
  simpl. intuition congruence.
Qed.

(** X13: ["yml"] is listed in [SupportedExts], yet [Readfile] of an
    existing file named [base + ".yml"] answers
    [UnsupportedConfigError("yml")]: [ExportAs] only knows ["yaml"]. *)
Theorem Readfile_yml_unsupported (yaml json toml : string -> option value)
    (ReadFile : string -> option string) (base content : string)
    (Hr : ReadFile (base ++ ".yml") = Some content) :
  In "yml" SupportedExts /\
  Readfile yaml json toml ReadFile (base ++ ".yml") = Unsupported "yml".
Proof.
  split; [simpl; tauto|].
  unfold Readfile. rewrite Hr.
  change (base ++ ".yml") with (base ++ "." ++ "yml").
  rewrite getConfigType_ext by (reflexivity || discriminate). reflexivity.
Qed.

Lemma Readfile_yml_unsupported_witness :
  let dec := fun _ : string => Some (VMap []) in
  let rf := fun p => if String.eqb p "config.yml" then Some "a: 1" else None in
  In "yml" SupportedExts /\ Readfile dec dec dec rf ("config" ++ ".yml") = Unsupported "yml".
Proof. intros dec rf. apply (Readfile_yml_unsupported dec dec dec rf "config" "a: 1"). reflexivity. Defined.



(** X15: binding a flag the user has not changed to a key that nothing
    sets writes the flag's default (its value converted by the flag's type:
    [cast.ToInt] for the int types, [cast.ToBool] for bool, the string
    otherwise), which [Get(key)] then returns. *)
Theorem BindPFlag_default_when_unset (ToInt : string -> Z) (ToBool : string -> bool)
    (os : environ) (key : string) (f : Flag) (m : ConfigManager)
    (Hc : flag_changed f = false) (Hs : IsSet os key m = false) :
  let r := BindPFlag ToInt ToBool os key (Some f) m in
  snd r = None /\ Get os key (fst r) = pflag_default ToInt ToBool f /\
  alookup key (data (attributes (fst r))) = Some (pflag_default ToInt ToBool f).
Proof.
  assert (Hdv : pflag_default ToInt ToBool f <> VNull).
  { unfold pflag_default. by repeat case_match. }
  cbn [BindPFlag].
  set (m1 := {| attributes := attributes m; pflags := pf_Set key f (pflags m); env := env m |}).
  assert (Hp1 : pf_Get key (pflags m1) = None).
  { unfold pf_Get, m1, pf_Set. cbn [pflags].
    replace (<[ToLower key := f]> (pflags m) !! ToLower key) with (Some f)
      by (symmetry; apply lookup_insert_eq).
    by rewrite Hc. }
  assert (Hp : pf_Get key (pflags m) = None).
  { unfold IsSet in Hs. rewrite Get_eq_Find in Hs. unfold Find in Hs.
    destruct (pf_Get key (pflags m)) as [x|] eqn:Hx; [|done].
    apply pf_Get_not_nil in Hx. by destruct x. }
  assert (Hs1 : IsSet os key m1 = false).
  { unfold IsSet in Hs |- *. rewrite Get_eq_Find in Hs |- *. unfold Find in Hs |- *.
    rewrite Hp in Hs. rewrite Hp1. exact Hs. }
  unfold SetDefault. rewrite Hs1. cbn [negb fst snd].
  split; [done|]. split.
  - rewrite Get_eq_Find. unfold Find. cbn [pflags env attributes with_attributes].
    rewrite Hp1.
    destruct (env_Get os key (env m1)) as [x|] eqn:He.
    + exfalso. unfold IsSet in Hs1. rewrite Get_eq_Find in Hs1. unfold Find in Hs1.
      rewrite Hp1, He in Hs1. apply env_Get_not_nil in He. by destruct x.
    + by rewrite cs_Get_Set_lower.
  - apply alookup_aset_eq.
Qed.

Lemma BindPFlag_default_when_unset_witness :
  let f := {| flag_value := "1138"; flag_type := "int"; flag_changed := false |} in
  let os := fun _ : string => "" in
  let r := BindPFlag (fun _ => 1138%Z) (fun _ => false) os "port" (Some f) NewConfiguration in
  snd r = None /\ Get os "port" (fst r) = VInt 1138 /\
  alookup "port" (data (attributes (fst r))) = Some (VInt 1138).
Proof. intros f os. apply BindPFlag_default_when_unset; reflexivity. Defined.

(** X16: binding a flag never overrides a non-null value the attribute
    store already holds for the key: the store is left unchanged. *)
Theorem BindPFlag_keeps_set_attribute (ToInt : string -> Z) (ToBool : string -> bool)
    (os : environ) (key : string) (f : Flag) (m : ConfigManager) (v : value)
    (Ha : cs_Get key (attributes m) = Some v) (Hv : v <> VNull) :
  attributes (fst (BindPFlag ToInt ToBool os key (Some f) m)) = attributes m.
Proof.
  cbn [BindPFlag fst].
  set (m1 := {| attributes := attributes m; pflags := pf_Set key f (pflags m); env := env m |}).
  assert (Hf : Find os key m1 <> VNull) by (apply (Find_not_nil os key m1 v); done).
  unfold SetDefault, IsSet. rewrite Get_eq_Find.
  destruct (Find os key m1); [done|..]; reflexivity.
Qed.

Lemma BindPFlag_keeps_set_attribute_witness :
  let f := {| flag_value := "1138"; flag_type := "int"; flag_changed := false |} in
  let m := mgr_Set "port" (VInt 80) NewConfiguration in
  attributes (fst (BindPFlag (fun _ => 1138%Z) (fun _ => false) (fun _ => "") "port" (Some f) m))
  = attributes m.
Proof.
  intros f m. apply (BindPFlag_keeps_set_attribute _ _ _ _ _ _ (VInt 80)); [reflexivity | discriminate].
Defined.
